(** * graphql/schemabuilder/types.go — object descriptors and field registration

    A shallow embedding of [types.go].  An [Object] is reached through a
    pointer receiver and its [Methods] map stores pointers to heap-allocated
    [method] descriptors, so the embedding threads an explicit state: the
    [Object] under construction together with the store of [method] cells.
    A Go [panic] is an outcome of its own, carrying the state in which the
    call was abandoned. *)

From stdpp Require Import gmap strings list fin_maps.


(** ** Data model *)

(** The address of a heap-allocated [method], Go's pointer-to-[method]. *)
Definition ptr := positive.

(** [type Methods map[string]*method] *)
Abbreviation Methods := (gmap string ptr).

Section schemabuilder.

(** Values of Go's [interface{}]: field functions and type handles, which
    [types.go] stores and never inspects. *)
Context {iface : Type}.

(** [type method struct { MarkedNonNullable bool; Fn interface{} }] *)
Record method := Build_method {
  MarkedNonNullable : bool;
  Fn : iface;
}.


(** [type PaginationObject struct { Name string; Fn interface{} }]
    (the field names carry a prefix: [Name] and [Fn] are taken). *)
Record PaginationObject := Build_PaginationObject {
  pgName : string;
  pgFn : iface;
}.

(** [type Object struct].  [Type_] is the field [Type]; [Methods_] is the
    field [Methods], where [None] is Go's nil map. *)
Record Object := Build_Object {
  Name : string;
  Description : string;
  Type_ : iface;
  Methods_ : option Methods;
  PaginatedFields : list PaginationObject;
  key : string;
}.

(** The store of [method] cells. *)
Abbreviation heap := (gmap ptr method).

(** The receiver [s *Object] and the cells its registry points into. *)
Record state := Build_state {
  obj : Object;
  mem : heap;
}.

(** How a call ends: by returning, or by a panic with its message. *)
Inductive outcome :=
  | Returned (σ : state)
  | Panicked (msg : string) (σ : state).

Definition bind (r : outcome) (k : state → outcome) : outcome :=
  match r with
  | Returned σ => k σ
  | Panicked msg σ => Panicked msg σ
  end.

(** Field assignments on the receiver. *)
Definition set_Methods (ms : option Methods) (s : Object) : Object :=
  {| Name := Name s; Description := Description s; Type_ := Type_ s;
     Methods_ := ms; PaginatedFields := PaginatedFields s; key := key s |}.

Definition set_key (f : string) (s : Object) : Object :=
  {| Name := Name s; Description := Description s; Type_ := Type_ s;
     Methods_ := Methods_ s; PaginatedFields := PaginatedFields s; key := f |}.

Definition set_PaginatedFields (ps : list PaginationObject) (s : Object) : Object :=
  {| Name := Name s; Description := Description s; Type_ := Type_ s;
     Methods_ := Methods_ s; PaginatedFields := ps; key := key s |}.

(** ** Options *)

(** [type FieldFuncOption func(m *method)].  An option is handed the address
    of the descriptor under construction and updates that descriptor; it is
    embedded as the update it performs, and [call_option] is the call
    [option(m)], which writes the update through [m].  The type [method] is
    unexported, so options are written inside the package, where
    [NonNullable] is the only one; the embedding admits any update. *)
Definition FieldFuncOption := method → method.

Definition call_option (m : ptr) (h : heap) (option : FieldFuncOption) : heap :=
  alter option m h.

(** [func NonNullable(m *method) { m.MarkedNonNullable = true }] *)
Definition NonNullable : FieldFuncOption :=
  fun m => {| MarkedNonNullable := true; Fn := Fn m |}.

(** ** Registration operations *)

(** [func (s *Object) FieldFunc(name string, f interface{}, options ...FieldFuncOption)] *)
Definition FieldFunc (name : string) (f : iface) (options : list FieldFuncOption)
    (σ : state) : outcome :=
  (* if s.Methods == nil { s.Methods = make(Methods) } *)
  let methods : Methods :=
    match Methods_ (obj σ) with
    | None => ∅
    | Some ms => ms
    end in
  let s := set_Methods (Some methods) (obj σ) in
  (* m := &method{Fn: f} *)
  let m : ptr := fresh (dom (mem σ)) in
  let h := <[m := {| MarkedNonNullable := false; Fn := f |}]> (mem σ) in
  (* for _, option := range options { option(m) } *)
  let h := foldl (call_option m) h options in
  (* if _, ok := s.Methods[name]; ok { panic("duplicate method") } *)
  match methods !! name with
  | Some _ => Panicked "duplicate method"%string {| obj := s; mem := h |}
  | None =>
      (* s.Methods[name] = m *)
      Returned {| obj := set_Methods (Some (<[name := m]> methods)) s; mem := h |}
  end.

(** [func (s *Object) Key(f string) { s.key = f }] *)
Definition Key (f : string) (σ : state) : outcome :=
  Returned {| obj := set_key f (obj σ); mem := mem σ |}.

(** Modelled from the spec: the operation that registers a pagination
    descriptor is not part of [types.go], which only declares the
    [PaginatedFields] slice.  Following section 4.3, a registration appends
    the descriptor to that slice
    ([s.PaginatedFields = append(s.PaginatedFields, p)]) and checks nothing. *)
Definition PaginatedField (p : PaginationObject) (σ : state) : outcome :=
  Returned {| obj := set_PaginatedFields (PaginatedFields (obj σ) ++ [p]) (obj σ);
              mem := mem σ |}.

(** The zero value [Object{Type: t}] with nothing allocated. *)
Definition new_Object (t : iface) : state :=
  {| obj := {| Name := EmptyString; Description := EmptyString; Type_ := t; Methods_ := None;
               PaginatedFields := []; key := EmptyString |};
     mem := ∅ |}.

(** ** Sequences of calls *)

(** One registration call of host code on the receiver. *)
Inductive call :=
  | CallFieldFunc (name : string) (f : iface) (options : list FieldFuncOption)
  | CallKey (f : string)
  | CallPaginatedField (p : PaginationObject).

Definition exec (c : call) : state → outcome :=
  match c with
  | CallFieldFunc name f options => FieldFunc name f options
  | CallKey f => Key f
  | CallPaginatedField p => PaginatedField p
  end.

(** Calls run one after the other; a panic abandons the rest. *)
Fixpoint run (cs : list call) (σ : state) : outcome :=
  match cs with
  | [] => Returned σ
  | c :: cs => bind (exec c σ) (run cs)
  end.

(** The arguments of one [FieldFunc] call. *)
Record registration := Build_registration {
  reg_name : string;
  reg_fn : iface;
  reg_options : list FieldFuncOption;
}.

Definition FieldFuncs (rs : list registration) : state → outcome :=
  run ((λ r, CallFieldFunc (reg_name r) (reg_fn r) (reg_options r)) <$> rs).

(** ** Observations on a state *)

(** Reading [s.Methods]: a nil map reads as the empty map. *)
Definition registry (s : Object) : gmap string ptr :=
  match Methods_ s with
  | None => ∅
  | Some ms => ms
  end.

(** The descriptor registered under [n], i.e. [*s.Methods[n]]. *)
Definition field (σ : state) (n : string) : option method :=
  registry (obj σ) !! n ≫= λ p, mem σ !! p.

(** Every pointer held by the registry points to an allocated cell, as
    pointers obtained from [&method{...}] do.  It holds of a new object and
    is kept by every call ([wf_new_Object], [run_wf]). *)
Definition wf (σ : state) : Prop :=
  map_Forall (λ _ p, is_Some (mem σ !! p)) (registry (obj σ)).

(** The descriptor obtained from [&method{Fn: f}] by the options, first to last. *)
Definition apply_options (options : list FieldFuncOption) (d : method) : method :=
  foldl (λ d option, option d) d options.

Definition built (f : iface) (options : list FieldFuncOption) : method :=
  apply_options options {| MarkedNonNullable := false; Fn := f |}.

(** An option assigns [v] to an attribute, or leaves the attribute alone. *)
Definition sets {A} (attr : method → A) (v : A) (option : FieldFuncOption) : Prop :=
  ∀ d, attr (option d) = v.

Definition keeps {A} (attr : method → A) (option : FieldFuncOption) : Prop :=
  ∀ d, attr (option d) = attr d.

(** The registry as host code can observe it: names and the descriptors
    behind them, whatever the addresses. *)
Definition descriptors (σ : state) : option (gmap string (option method)) :=
  (λ ms : gmap string ptr, (λ p, mem σ !! p) <$> ms) <$> Methods_ (obj σ).

Definition same_state (σ1 σ2 : state) : Prop :=
  Name (obj σ1) = Name (obj σ2) ∧
  Description (obj σ1) = Description (obj σ2) ∧
  Type_ (obj σ1) = Type_ (obj σ2) ∧
  descriptors σ1 = descriptors σ2 ∧
  PaginatedFields (obj σ1) = PaginatedFields (obj σ2) ∧
  key (obj σ1) = key (obj σ2).

Definition same_outcome (r1 r2 : outcome) : Prop :=
  match r1, r2 with
  | Returned σ1, Returned σ2 => same_state σ1 σ2
  | Panicked msg1 σ1, Panicked msg2 σ2 => msg1 = msg2 ∧ same_state σ1 σ2
  | _, _ => False
  end.

(** The state in which a call ended, either way. *)
Definition outcome_state (r : outcome) : state :=
  match r with
  | Returned σ => σ
  | Panicked _ σ => σ
  end.

(** The registered names with the contents of their cells. *)
Definition registered (σ : state) : gmap string (option method) :=
  (λ p, mem σ !! p) <$> registry (obj σ).

(** ** The example of the specification *)

(** [O.FieldFunc("fullName", f1)], [O.FieldFunc("age", f2, NonNullable)],
    [O.Key("fullName")] on a new object for the type [t]. *)
Definition scenario (f1 f2 : iface) : list call :=
  [CallFieldFunc "fullName" f1 []; CallFieldFunc "age" f2 [NonNullable];
   CallKey "fullName"].

Definition scenario_state (t f1 f2 : iface) : state :=
  outcome_state (run (scenario f1 f2) (new_Object t)).

(** ** Observations on a sequence of calls *)


(** The argument of the last [Key] call of a sequence, [k] when it has none. *)
Definition last_key (k : string) (cs : list call) : string :=
  foldl (λ k c, match c with
                | CallKey f => f
                | _ => k
                end) k cs.

(** ** Basic facts about [FieldFunc] *)

Lemma foldl_call_option (m : ptr) (options : list FieldFuncOption) (d : method) (h : heap) :
  foldl (call_option m) (<[m := d]> h) options = <[m := apply_options options d]> h.
Proof.
  revert d. induction options as [|o os IH]; intros d; simpl; [done|].
  unfold call_option at 2. by rewrite alter_insert_eq, IH.
Qed.

Lemma fresh_unallocated (h : heap) : h !! fresh (dom h) = None.
Proof. apply not_elem_of_dom, is_fresh. Qed.

Lemma registry_set_Methods ms s : registry (set_Methods (Some ms) s) = ms.
Proof. done. Qed.

Lemma set_Methods_registry s ms :
  Methods_ s = Some ms → set_Methods (Some ms) s = s.
Proof. destruct s; simpl; by intros ->. Qed.

(** A call with a name that is not registered returns, with the new cell
    stored under the name. *)
Lemma FieldFunc_Returned name f options σ :
  registry (obj σ) !! name = None →
  FieldFunc name f options σ =
    Returned {| obj := set_Methods (Some (<[name := fresh (dom (mem σ))]> (registry (obj σ)))) (obj σ);
                mem := <[fresh (dom (mem σ)) := built f options]> (mem σ) |}.
Proof.
  intros Hn. unfold FieldFunc, built. rewrite foldl_call_option.
  fold (registry (obj σ)). by rewrite Hn.
Qed.

(** A call with a registered name panics, and the receiver is as it was. *)
Lemma FieldFunc_Panicked name f options σ :
  is_Some (registry (obj σ) !! name) →
  FieldFunc name f options σ =
    Panicked "duplicate method"%string
      {| obj := obj σ; mem := <[fresh (dom (mem σ)) := built f options]> (mem σ) |}.
Proof.
  intros [p Hp]. unfold FieldFunc, built. rewrite foldl_call_option.
  fold (registry (obj σ)). rewrite Hp.
  destruct (Methods_ (obj σ)) as [ms|] eqn:Hms.
  - unfold registry. rewrite Hms. by rewrite (set_Methods_registry _ _ Hms).
  - unfold registry in Hp. by rewrite Hms, lookup_empty in Hp.
Qed.

(** Allocating a cell leaves the cells the registry points to alone. *)
Lemma field_alloc σ s d n :
  wf σ → registry s = registry (obj σ) →
  field {| obj := s; mem := <[fresh (dom (mem σ)) := d]> (mem σ) |} n = field σ n.
Proof.
  intros Hwf Hs. unfold field; simpl. rewrite Hs.
  destruct (registry (obj σ) !! n) as [p|] eqn:Hp; simpl; [|done].
  apply lookup_insert_ne. intros <-.
  apply Hwf in Hp. rewrite fresh_unallocated in Hp. by destruct Hp.
Qed.

Lemma field_FieldFunc_new σ name d :
  field {| obj := set_Methods (Some (<[name := fresh (dom (mem σ))]> (registry (obj σ)))) (obj σ);
           mem := <[fresh (dom (mem σ)) := d]> (mem σ) |} name = Some d.
Proof. unfold field; simpl. rewrite registry_set_Methods, lookup_insert_eq; simpl. apply lookup_insert_eq. Qed.

Lemma field_FieldFunc_other σ name d n :
  wf σ → n ≠ name →
  field {| obj := set_Methods (Some (<[name := fresh (dom (mem σ))]> (registry (obj σ)))) (obj σ);
           mem := <[fresh (dom (mem σ)) := d]> (mem σ) |} n = field σ n.
Proof.
  intros Hwf Hne. rewrite <- (field_alloc σ (obj σ) d n Hwf eq_refl).
  unfold field; simpl. by rewrite registry_set_Methods, lookup_insert_ne.
Qed.

Lemma wf_alloc σ s d :
  wf σ → registry s = registry (obj σ) →
  wf {| obj := s; mem := <[fresh (dom (mem σ)) := d]> (mem σ) |}.
Proof.
  intros Hwf Hs n p; simpl. rewrite Hs. intros Hp. apply Hwf in Hp.
  rewrite lookup_insert_ne; [done|]. intros <-.
  rewrite fresh_unallocated in Hp. by destruct Hp.
Qed.

Lemma wf_FieldFunc_new σ name d :
  wf σ →
  wf {| obj := set_Methods (Some (<[name := fresh (dom (mem σ))]> (registry (obj σ)))) (obj σ);
        mem := <[fresh (dom (mem σ)) := d]> (mem σ) |}.
Proof.
  intros Hwf n p; simpl. rewrite registry_set_Methods.
  destruct (decide (name = n)) as [->|Hne].
  - rewrite lookup_insert_eq. intros [= <-]. rewrite lookup_insert_eq. eauto.
  - rewrite lookup_insert_ne by done. intros Hp. apply Hwf in Hp.
    rewrite lookup_insert_ne; [done|]. intros <-.
    rewrite fresh_unallocated in Hp. by destruct Hp.
Qed.

Lemma wf_new_Object t : wf (new_Object t).
Proof. intros n p. unfold new_Object, registry; simpl. by rewrite lookup_empty. Qed.

(** ** Duplicate names *)

(** C2: a [FieldFunc] call whose name is already in the registry panics
    instead of returning, and after the panic the receiver is unchanged:
    every name is registered to the same cell with the same descriptor, and
    every cell that was allocated holds what it held. *)
Theorem FieldFunc_duplicate_panics name f options σ :
  wf σ →
  is_Some (registry (obj σ) !! name) →
  ∃ σ', FieldFunc name f options σ = Panicked "duplicate method"%string σ' ∧
        (∀ τ, FieldFunc name f options σ ≠ Returned τ) ∧
        obj σ' = obj σ ∧
        (∀ n, registry (obj σ') !! n = registry (obj σ) !! n) ∧
        (∀ n, field σ' n = field σ n) ∧
        (∀ p, is_Some (mem σ !! p) → mem σ' !! p = mem σ !! p).
Proof.
  intros Hwf Hdup. rewrite (FieldFunc_Panicked _ _ _ _ Hdup).
  eexists; split; [reflexivity|]. simpl. repeat split; try done.
  - intros n. by apply field_alloc.
  - intros p Hp. apply lookup_insert_ne. intros <-.
    rewrite fresh_unallocated in Hp. by destruct Hp.
Qed.

(** ** The key field *)

(** C4: [Key] always returns and records its argument; a second call
    overwrites the first; it returns on an object on which [FieldFunc] was
    never called; and its result does not depend on whether the argument
    names an entry of the registry. *)
Theorem Key_last_write_wins :
  (∀ σ x y, ∃ σ',
      bind (Key x σ) (Key y) = Returned σ' ∧ key (obj σ') = y) ∧
  (∀ σ f, ∃ σ', Key f σ = Returned σ' ∧ key (obj σ') = f) ∧
  (∀ t f, ∃ σ', Key f (new_Object t) = Returned σ' ∧ key (obj σ') = f) ∧
  (∀ σ f, registry (obj σ) !! f = None →
      ∃ σ', Key f σ = Returned σ' ∧ key (obj σ') = f).
Proof.
  repeat split; intros; eexists; (split; [reflexivity|done]).
Qed.

(** ** Pagination *)

(** C6: registering [p1] and then [p2] returns, whatever their names, and
    appends the two descriptors in that order behind the ones already
    registered, which stay where they were; on an object without pagination
    descriptors the result is [[p1; p2]]. *)
Theorem PaginatedField_appends σ p1 p2 :
  ∃ σ', bind (PaginatedField p1 σ) (PaginatedField p2) = Returned σ' ∧
        PaginatedFields (obj σ') = PaginatedFields (obj σ) ++ [p1; p2] ∧
        (PaginatedFields (obj σ) = [] → PaginatedFields (obj σ') = [p1; p2]) ∧
        (∀ i p, PaginatedFields (obj σ) !! i = Some p →
                PaginatedFields (obj σ') !! i = Some p) ∧
        List.length (PaginatedFields (obj σ')) = List.length (PaginatedFields (obj σ)) + 2.
Proof.
  eexists; split; [reflexivity|]; simpl.
  rewrite <- app_assoc; simpl. repeat split.
  - by intros ->.
  - intros i p Hp. by apply lookup_app_l_Some.
  - rewrite length_app. done.
Qed.

(** ** Lazy initialisation *)

(** C7: on a receiver whose [Methods] map is still nil, [FieldFunc] returns,
    and afterwards the map exists and holds exactly the new entry, whose cell
    carries the descriptor built from the function and the options. *)
Theorem FieldFunc_initialises_registry name f options σ :
  Methods_ (obj σ) = None →
  ∃ σ' m, FieldFunc name f options σ = Returned σ' ∧
          Methods_ (obj σ') = Some {[name := m]} ∧
          mem σ' !! m = Some (built f options) ∧
          field σ' name = Some (built f options).
Proof.
  intros Hnil.
  assert (registry (obj σ) = ∅) as Hreg by (unfold registry; by rewrite Hnil).
  rewrite FieldFunc_Returned by (by rewrite Hreg, lookup_empty).
  eexists _, _; split; [reflexivity|]. repeat split.
  - simpl. by rewrite Hreg, insert_empty.
  - simpl. apply lookup_insert_eq.
  - apply field_FieldFunc_new.
Qed.

(** ** Frame *)

(** C9: a [FieldFunc] call that returns leaves [Name], [Description],
    [Type], [key] and [PaginatedFields] as they were; a [Key] call leaves
    [Name], [Description], [Type], [Methods] and [PaginatedFields] as they
    were, and no descriptor cell changes. *)
Theorem registration_frame :
  (∀ name f options σ σ',
      FieldFunc name f options σ = Returned σ' →
      Name (obj σ') = Name (obj σ) ∧
      Description (obj σ') = Description (obj σ) ∧
      Type_ (obj σ') = Type_ (obj σ) ∧
      key (obj σ') = key (obj σ) ∧
      PaginatedFields (obj σ') = PaginatedFields (obj σ)) ∧
  (∀ f σ σ',
      Key f σ = Returned σ' →
      Name (obj σ') = Name (obj σ) ∧
      Description (obj σ') = Description (obj σ) ∧
      Type_ (obj σ') = Type_ (obj σ) ∧
      Methods_ (obj σ') = Methods_ (obj σ) ∧
      PaginatedFields (obj σ') = PaginatedFields (obj σ) ∧
      mem σ' = mem σ).
Proof.
  split.
  - intros name f options σ σ'. unfold FieldFunc.
    destruct (_ !! name); [done|]. by intros [= <-].
  - intros f σ σ'. unfold Key. by intros [= <-].
Qed.

(** ** The empty name *)

(** C10: [FieldFunc] does not look at the name it is given beyond the
    registry lookup: with the empty string, not yet registered, it returns
    and the descriptor is registered under the empty string. *)
Theorem FieldFunc_empty_name f options σ :
  registry (obj σ) !! EmptyString = None →
  ∃ σ' m, FieldFunc EmptyString f options σ = Returned σ' ∧
          registry (obj σ') !! EmptyString = Some m ∧
          mem σ' !! m = Some (built f options) ∧
          field σ' EmptyString = Some (built f options).
Proof.
  intros Hn. rewrite (FieldFunc_Returned _ _ _ _ Hn).
  eexists _, _; split; [reflexivity|]. repeat split.
  - simpl. rewrite registry_set_Methods. apply lookup_insert_eq.
  - simpl. apply lookup_insert_eq.
  - apply field_FieldFunc_new.
Qed.

(** ** Options are applied first to last *)

Lemma apply_options_app pre post d :
  apply_options (pre ++ post) d = apply_options post (apply_options pre d).
Proof. apply foldl_app. Qed.

Lemma apply_options_keeps {A} (attr : method → A) options d :
  Forall (keeps attr) options → attr (apply_options options d) = attr d.
Proof.
  intros Hk. revert d. induction Hk as [|o os Ho _ IH]; intros d; simpl; [done|].
  by rewrite IH, Ho.
Qed.

Lemma apply_options_last_wins {A} (attr : method → A) v pre o post d :
  sets attr v o → Forall (keeps attr) post →
  attr (apply_options (pre ++ o :: post) d) = v.
Proof.
  intros Ho Hpost. rewrite apply_options_app; simpl.
  fold (apply_options post (o (apply_options pre d))).
  by rewrite apply_options_keeps.
Qed.

Lemma NonNullable_sets : sets MarkedNonNullable true NonNullable.
Proof. by intros d. Qed.

Lemma NonNullable_keeps_Fn : keeps Fn NonNullable.
Proof. by intros d. Qed.

(** C5: within one [FieldFunc] call a fresh cell [m] is allocated for
    [&method{Fn: f}], every option is called on [m], first to last, and [m]
    is what the registry stores; the cell ends up holding the options folded
    over the initial descriptor in the order given, no other cell changes,
    and when an option assigns a value to an attribute and no later option
    touches that attribute, that value is the stored one whatever the
    options before it did. *)
Theorem FieldFunc_options_in_order name f options σ :
  registry (obj σ) !! name = None →
  ∃ σ' m, FieldFunc name f options σ = Returned σ' ∧
          registry (obj σ') !! name = Some m ∧
          mem σ !! m = None ∧
          mem σ' = foldl (call_option m)
                     (<[m := {| MarkedNonNullable := false; Fn := f |}]> (mem σ)) options ∧
          mem σ' !! m = Some (foldl (λ d option, option d)
                                {| MarkedNonNullable := false; Fn := f |} options) ∧
          (∀ p, p ≠ m → mem σ' !! p = mem σ !! p) ∧
          (∀ A (attr : method → A) v pre o post d,
              options = pre ++ o :: post →
              sets attr v o → Forall (keeps attr) post →
              mem σ' !! m = Some d → attr d = v).
Proof.
  intros Hn. rewrite (FieldFunc_Returned _ _ _ _ Hn).
  eexists _, _; split; [reflexivity|]. simpl. repeat split.
  - rewrite registry_set_Methods. apply lookup_insert_eq.
  - apply fresh_unallocated.
  - by rewrite foldl_call_option.
  - apply lookup_insert_eq.
  - intros p Hp. by apply lookup_insert_ne.
  - intros A attr v pre o post d -> Ho Hpost. rewrite lookup_insert_eq.
    intros [= <-]. by apply apply_options_last_wins.
Qed.

(** ** NonNullable *)

(** C3: registering a field with [NonNullable] among its options, followed
    only by options that leave the flag alone, stores a descriptor whose
    [MarkedNonNullable] is true; registering with options that all leave the
    flag alone (in particular with none) stores one whose flag is false; and
    whatever the options, the descriptors of all other names are unchanged. *)
Theorem NonNullable_marks_its_field_only name f σ :
  wf σ →
  registry (obj σ) !! name = None →
  (∀ pre post, Forall (keeps MarkedNonNullable) post →
     ∃ σ' d, FieldFunc name f (pre ++ NonNullable :: post) σ = Returned σ' ∧
             field σ' name = Some d ∧ MarkedNonNullable d = true) ∧
  (∀ options, Forall (keeps MarkedNonNullable) options →
     ∃ σ' d, FieldFunc name f options σ = Returned σ' ∧
             field σ' name = Some d ∧ MarkedNonNullable d = false) ∧
  (∀ options, ∃ σ', FieldFunc name f options σ = Returned σ' ∧
     ∀ n, n ≠ name → field σ' n = field σ n).
Proof.
  intros Hwf Hn. repeat split.
  - intros pre post Hpost. rewrite (FieldFunc_Returned _ _ _ _ Hn).
    eexists _, _; split; [reflexivity|]. split; [apply field_FieldFunc_new|].
    apply apply_options_last_wins; [apply NonNullable_sets|done].
  - intros options Hk. rewrite (FieldFunc_Returned _ _ _ _ Hn).
    eexists _, _; split; [reflexivity|]. split; [apply field_FieldFunc_new|].
    unfold built. by rewrite apply_options_keeps.
  - intros options. rewrite (FieldFunc_Returned _ _ _ _ Hn).
    eexists; split; [reflexivity|]. intros n Hne. by apply field_FieldFunc_other.
Qed.

(** ** Sequences of registrations *)

Lemma FieldFuncs_cons r rs σ :
  FieldFuncs (r :: rs) σ =
    bind (FieldFunc (reg_name r) (reg_fn r) (reg_options r) σ) (FieldFuncs rs).
Proof. done. Qed.

(** Registrations under distinct, unregistered names all return; the
    registry and the store only grow, and every call gets a cell of its own
    that was not allocated before. *)
Lemma FieldFuncs_spec rs :
  ∀ σ, wf σ →
    NoDup (reg_name <$> rs) →
    (∀ n, n ∈ reg_name <$> rs → registry (obj σ) !! n = None) →
    ∃ σ', FieldFuncs rs σ = Returned σ' ∧ wf σ' ∧
          registry (obj σ) ⊆ registry (obj σ') ∧
          mem σ ⊆ mem σ' ∧
          dom (registry (obj σ')) =
            dom (registry (obj σ)) ∪ list_to_set (reg_name <$> rs) ∧
          size (registry (obj σ')) = size (registry (obj σ)) + List.length rs ∧
          (∀ r, r ∈ rs →
             ∃ p, registry (obj σ') !! reg_name r = Some p ∧
                  mem σ !! p = None ∧
                  mem σ' !! p = Some (built (reg_fn r) (reg_options r))) ∧
          (∀ r1 r2 p, r1 ∈ rs → r2 ∈ rs →
             registry (obj σ') !! reg_name r1 = Some p →
             registry (obj σ') !! reg_name r2 = Some p →
             reg_name r1 = reg_name r2).
Proof.
  induction rs as [|r rs IH]; intros σ Hwf Hnd Hfree.
  - exists σ. repeat split; try done.
    + rewrite fmap_nil, list_to_set_nil. by rewrite (right_id_L ∅ (∪)).
    + intros r Hr. by apply elem_of_nil in Hr.
    + intros r1 r2 p Hr. by apply elem_of_nil in Hr.
  - rewrite fmap_cons in Hnd. apply NoDup_cons in Hnd as [Hnotin Hnd].
    assert (registry (obj σ) !! reg_name r = None) as Hr
      by (apply Hfree; rewrite fmap_cons; apply elem_of_cons; by left).
    rewrite FieldFuncs_cons, (FieldFunc_Returned _ _ _ _ Hr). simpl.
    set (m := fresh (dom (mem σ))).
    set (d := built (reg_fn r) (reg_options r)).
    set (σ1 := {| obj := set_Methods (Some (<[reg_name r := m]> (registry (obj σ)))) (obj σ);
                  mem := <[m := d]> (mem σ) |}).
    assert (registry (obj σ1) = <[reg_name r := m]> (registry (obj σ))) as Hreg1 by done.
    assert (mem σ !! m = None) as Hm by apply fresh_unallocated.
    destruct (IH σ1) as (σ' & Hrun & Hwf' & Hsub & Hmem & Hdom & Hsize & Hcells & Hinj).
    { by apply wf_FieldFunc_new. }
    { done. }
    { intros n Hn. rewrite Hreg1, lookup_insert_ne.
      - apply Hfree. rewrite fmap_cons. apply elem_of_cons. by right.
      - by intros <-. }
    assert (registry (obj σ') !! reg_name r = Some m) as Hrm.
    { eapply lookup_weaken; [|exact Hsub]. rewrite Hreg1. apply lookup_insert_eq. }
    assert (mem σ' !! m = Some d) as Hmd.
    { eapply lookup_weaken; [|exact Hmem]. apply lookup_insert_eq. }
    exists σ'. split; [exact Hrun|]. split; [exact Hwf'|]. repeat split.
    + etrans; [|exact Hsub]. rewrite Hreg1. by apply insert_subseteq.
    + etrans; [|exact Hmem]. by apply insert_subseteq.
    + rewrite Hdom, Hreg1, dom_insert_L, ?fmap_cons, ?list_to_set_cons.
      by rewrite (comm_L (∪) {[reg_name r]}), <- (assoc_L (∪)).
    + rewrite Hsize, Hreg1, map_size_insert_None by done. simpl. lia.
    + intros r' [->|Hr']%elem_of_cons.
      * exists m. done.
      * destruct (Hcells r' Hr') as (p & Hp & Hp1 & Hpd). exists p.
        repeat split; [done| |done].
        destruct (mem σ !! p) as [x|] eqn:Hx; [|done].
        assert (mem σ1 !! p = Some x) as Hx1
          by (eapply lookup_weaken; [exact Hx|by apply insert_subseteq]).
        congruence.
    + intros r1 r2 p [->|Hr1]%elem_of_cons [->|Hr2]%elem_of_cons Hp1 Hp2; [done| | |by eauto].
      * destruct (Hcells r2 Hr2) as (q & Hq & Hq1 & _).
        assert (q = m) as -> by congruence.
        simpl in Hq1. by rewrite lookup_insert_eq in Hq1.
      * destruct (Hcells r1 Hr1) as (q & Hq & Hq1 & _).
        assert (q = m) as -> by congruence.
        simpl in Hq1. by rewrite lookup_insert_eq in Hq1.
Qed.

(** C1: [FieldFunc] calls with pairwise distinct names, none of them
    registered beforehand, all return.  Afterwards the registered names are
    the earlier ones together with the names of the calls (exactly the names
    of the calls when the registry was empty), one entry per call; the
    descriptor under each name is the one built from that call's function
    and options, with [Fn] the function itself when the options leave [Fn]
    alone; and two different names never share a descriptor cell. *)
Theorem FieldFuncs_distinct_names rs σ :
  wf σ →
  NoDup (reg_name <$> rs) →
  (∀ n, n ∈ reg_name <$> rs → registry (obj σ) !! n = None) →
  ∃ σ', FieldFuncs rs σ = Returned σ' ∧
        dom (registry (obj σ')) =
          dom (registry (obj σ)) ∪ list_to_set (reg_name <$> rs) ∧
        (registry (obj σ) = ∅ →
           dom (registry (obj σ')) = list_to_set (reg_name <$> rs) ∧
           size (registry (obj σ')) = List.length rs) ∧
        size (registry (obj σ')) = size (registry (obj σ)) + List.length rs ∧
        (∀ r, r ∈ rs →
           field σ' (reg_name r) = Some (built (reg_fn r) (reg_options r))) ∧
        (∀ r, r ∈ rs → Forall (keeps Fn) (reg_options r) →
           ∃ d, field σ' (reg_name r) = Some d ∧ Fn d = reg_fn r) ∧
        (∀ r1 r2 p, r1 ∈ rs → r2 ∈ rs →
           registry (obj σ') !! reg_name r1 = Some p →
           registry (obj σ') !! reg_name r2 = Some p →
           reg_name r1 = reg_name r2).
Proof.
  intros Hwf Hnd Hfree.
  destruct (FieldFuncs_spec rs σ Hwf Hnd Hfree)
    as (σ' & Hrun & _ & _ & _ & Hdom & Hsize & Hcells & Hinj).
  assert (∀ r, r ∈ rs →
            field σ' (reg_name r) = Some (built (reg_fn r) (reg_options r))) as Hfield.
  { intros r Hr. destruct (Hcells r Hr) as (p & Hp & _ & Hd).
    unfold field. by rewrite Hp. }
  exists σ'. split; [done|]. split; [done|]. split; [|split; [done|]; split; [done|]; split; [|done]].
  - intros He. rewrite Hdom, Hsize, He, dom_empty_L, map_size_empty.
    split; [by rewrite (left_id_L ∅ (∪))|done].
  - intros r Hr Hk. eexists; split; [by apply Hfield|].
    unfold built. by rewrite apply_options_keeps.
Qed.

(** ** Determinism up to addresses *)

Lemma descriptors_alloc σ s d :
  wf σ → Methods_ s = Methods_ (obj σ) →
  descriptors {| obj := s; mem := <[fresh (dom (mem σ)) := d]> (mem σ) |} = descriptors σ.
Proof.
  intros Hwf Hs. unfold descriptors; simpl. rewrite Hs.
  destruct (Methods_ (obj σ)) as [ms|] eqn:Hms; simpl; [|done].
  f_equal. apply map_fmap_ext. intros n p Hp.
  apply lookup_insert_ne. intros <-.
  assert (registry (obj σ) !! n = Some (fresh (dom (mem σ)))) as Hreg
    by (unfold registry; by rewrite Hms).
  apply Hwf in Hreg. rewrite fresh_unallocated in Hreg. by destruct Hreg.
Qed.

Lemma registered_descriptors σ1 σ2 :
  descriptors σ1 = descriptors σ2 → registered σ1 = registered σ2.
Proof.
  unfold descriptors, registered, registry.
  destruct (Methods_ (obj σ1)), (Methods_ (obj σ2)); simpl; intros [=]; try done.
Qed.

Lemma registered_None σ n :
  registered σ !! n = None ↔ registry (obj σ) !! n = None.
Proof. unfold registered. rewrite lookup_fmap. apply fmap_None. Qed.

Lemma descriptors_FieldFunc_new σ name d :
  wf σ →
  descriptors
    {| obj := set_Methods (Some (<[name := fresh (dom (mem σ))]> (registry (obj σ)))) (obj σ);
       mem := <[fresh (dom (mem σ)) := d]> (mem σ) |}
  = Some (<[name := Some d]> (registered σ)).
Proof.
  intros Hwf. unfold descriptors, registered; simpl.
  rewrite fmap_insert, lookup_insert_eq. do 2 f_equal.
  apply map_fmap_ext. intros n p Hp.
  apply lookup_insert_ne. intros <-.
  apply Hwf in Hp. rewrite fresh_unallocated in Hp. by destruct Hp.
Qed.

Lemma exec_wf c σ : wf σ → wf (outcome_state (exec c σ)).
Proof.
  intros Hwf. destruct c as [name f options|f|p]; simpl; try done.
  destruct (registry (obj σ) !! name) as [q|] eqn:Hq.
  - rewrite FieldFunc_Panicked by eauto. simpl. by apply wf_alloc.
  - rewrite FieldFunc_Returned by done. simpl. by apply wf_FieldFunc_new.
Qed.

Lemma exec_same c σ1 σ2 :
  wf σ1 → wf σ2 → same_state σ1 σ2 →
  same_outcome (exec c σ1) (exec c σ2).
Proof.
  intros Hwf1 Hwf2 (HN & HD & HT & HM & HP & HK).
  destruct c as [name f options|f|p]; simpl.
  - pose proof (registered_descriptors _ _ HM) as HR.
    destruct (registry (obj σ1) !! name) as [q1|] eqn:Hq1.
    + destruct (registry (obj σ2) !! name) as [q2|] eqn:Hq2.
      * rewrite !FieldFunc_Panicked by eauto. simpl.
        split; [done|]. unfold same_state; simpl.
        by rewrite !descriptors_alloc.
      * apply registered_None in Hq2. rewrite <- HR in Hq2.
        apply registered_None in Hq2. congruence.
    + assert (registry (obj σ2) !! name = None) as Hq2.
      { apply registered_None. rewrite <- HR. by apply registered_None. }
      rewrite !FieldFunc_Returned by done. simpl.
      unfold same_state; simpl. rewrite !descriptors_FieldFunc_new by done.
      by rewrite HR.
  - unfold same_state, descriptors in *; simpl. done.
  - unfold same_state, descriptors in *; simpl. by rewrite HP.
Qed.

Lemma run_wf cs : ∀ σ, wf σ → wf (outcome_state (run cs σ)).
Proof.
  induction cs as [|c cs IH]; intros σ Hwf; simpl; [done|].
  pose proof (exec_wf c σ Hwf) as Hwf'.
  destruct (exec c σ) as [τ|msg τ]; simpl in *; [by apply IH|done].
Qed.

Lemma run_same cs :
  ∀ σ1 σ2, wf σ1 → wf σ2 → same_state σ1 σ2 →
    same_outcome (run cs σ1) (run cs σ2).
Proof.
  induction cs as [|c cs IH]; intros σ1 σ2 Hwf1 Hwf2 Hsame; simpl; [done|].
  pose proof (exec_same c σ1 σ2 Hwf1 Hwf2 Hsame) as Hstep.
  pose proof (exec_wf c σ1 Hwf1) as Hwf1'.
  pose proof (exec_wf c σ2 Hwf2) as Hwf2'.
  destruct (exec c σ1) as [τ1|msg1 τ1], (exec c σ2) as [τ2|msg2 τ2]; simpl in *; try done.
  by apply IH.
Qed.

(** C8: running the same calls from two states that agree on [Name],
    [Description], [Type], [key], [PaginatedFields] and on the registered
    names and descriptors ends the same way in both, by returning or by the
    same panic, in states that agree again, wherever the cells are
    allocated; from one and the same state the outcomes are equal; and a
    [FieldFunc] call under a registered name panics and leaves the
    descriptor registered under that name in place. *)
Theorem registration_deterministic :
  (∀ cs σ1 σ2, wf σ1 → wf σ2 → same_state σ1 σ2 →
      same_outcome (run cs σ1) (run cs σ2)) ∧
  (∀ cs σ1 σ2, σ1 = σ2 → run cs σ1 = run cs σ2) ∧
  (∀ name f options σ, wf σ → is_Some (registry (obj σ) !! name) →
      ∃ σ', FieldFunc name f options σ = Panicked "duplicate method"%string σ' ∧
            registry (obj σ') !! name = registry (obj σ) !! name ∧
            field σ' name = field σ name).
Proof.
  split; [|split].
  - intros cs. apply run_same.
  - by intros cs σ1 σ2 ->.
  - intros name f options σ Hwf Hdup. rewrite (FieldFunc_Panicked _ _ _ _ Hdup).
    eexists; split; [reflexivity|]. split; [done|]. by apply field_alloc.
Qed.

(** * Further properties of the registration operations *)

(** ** What a sequence of calls keeps *)

Lemma run_app cs1 cs2 σ : run (cs1 ++ cs2) σ = bind (run cs1 σ) (run cs2).
Proof.
  revert σ. induction cs1 as [|c cs1 IH]; intros σ; simpl; [done|].
  destruct (exec c σ) as [τ|msg τ]; simpl; [apply IH|done].
Qed.

Lemma exec_grows c σ :
  registry (obj σ) ⊆ registry (obj (outcome_state (exec c σ))) ∧
  mem σ ⊆ mem (outcome_state (exec c σ)).
Proof.
  destruct c as [name f options|f|p]; simpl; try done.
  destruct (registry (obj σ) !! name) as [q|] eqn:Hq.
  - rewrite FieldFunc_Panicked by eauto. simpl.
    split; [done|]. apply insert_subseteq, fresh_unallocated.
  - rewrite FieldFunc_Returned by done. simpl. rewrite registry_set_Methods.
    split; [by apply insert_subseteq|]. apply insert_subseteq, fresh_unallocated.
Qed.

Lemma run_grows cs :
  ∀ σ, registry (obj σ) ⊆ registry (obj (outcome_state (run cs σ))) ∧
       mem σ ⊆ mem (outcome_state (run cs σ)).
Proof.
  induction cs as [|c cs IH]; intros σ; simpl; [done|].
  destruct (exec_grows c σ) as [Hr Hm].
  destruct (exec c σ) as [τ|msg τ]; simpl in *; [|done].
  destruct (IH τ) as [Hr' Hm']. split; by etrans.
Qed.

(** X3: whatever calls follow, and whether they return or panic, the
    registry and the store of descriptor cells only grow: a descriptor that
    is registered under a name stays registered under it, unchanged. *)
Theorem run_keeps_registered cs σ :
  registry (obj σ) ⊆ registry (obj (outcome_state (run cs σ))) ∧
  mem σ ⊆ mem (outcome_state (run cs σ)) ∧
  ∀ n d, field σ n = Some d → field (outcome_state (run cs σ)) n = Some d.
Proof.
  destruct (run_grows cs σ) as [Hr Hm]. split; [done|]. split; [done|].
  intros n d. unfold field.
  destruct (registry (obj σ) !! n) as [p|] eqn:Hp; simpl; [|done].
  intros Hd. rewrite (lookup_weaken _ _ _ _ Hp Hr). simpl.
  by apply (lookup_weaken _ _ _ _ Hd Hm).
Qed.

(** ** When a sequence of calls returns *)

Lemma registry_set_key f s : registry (set_key f s) = registry s.
Proof. done. Qed.

Lemma registry_set_PaginatedFields ps s : registry (set_PaginatedFields ps s) = registry s.
Proof. done. Qed.



(** ** Sequences that hit a duplicate *)

Lemma FieldFuncs_app rs1 rs2 σ :
  FieldFuncs (rs1 ++ rs2) σ = bind (FieldFuncs rs1 σ) (FieldFuncs rs2).
Proof. unfold FieldFuncs. by rewrite fmap_app, run_app. Qed.

(** X2: a sequence of [FieldFunc] calls is not undone by a panic.  When the
    calls [pre] have distinct, unregistered names and the next call repeats
    one of them or a name registered before, the sequence panics there: the
    fields of [pre] stay registered with their descriptors, the repeated
    name keeps the descriptor it had, and the calls after it never run. *)
Theorem FieldFuncs_stop_at_duplicate pre r post σ :
  wf σ →
  NoDup (reg_name <$> pre) →
  (∀ n, n ∈ reg_name <$> pre → registry (obj σ) !! n = None) →
  reg_name r ∈ reg_name <$> pre ∨ is_Some (registry (obj σ) !! reg_name r) →
  ∃ σ1 σ', FieldFuncs pre σ = Returned σ1 ∧
           FieldFuncs (pre ++ r :: post) σ = Panicked "duplicate method"%string σ' ∧
           obj σ' = obj σ1 ∧
           dom (registry (obj σ')) =
             dom (registry (obj σ)) ∪ list_to_set (reg_name <$> pre) ∧
           (∀ r', r' ∈ pre →
              field σ' (reg_name r') = Some (built (reg_fn r') (reg_options r'))) ∧
           (∀ n, field σ' n = field σ1 n).
Proof.
  intros Hwf Hnd Hfree Hdup.
  destruct (FieldFuncs_spec pre σ Hwf Hnd Hfree)
    as (σ1 & Hrun & Hwf1 & _ & _ & Hdom & _ & Hcells & _).
  assert (is_Some (registry (obj σ1) !! reg_name r)) as Hreg.
  { apply elem_of_dom. rewrite Hdom. apply elem_of_union.
    destruct Hdup as [Hin|Hin]; [right|left].
    - by apply elem_of_list_to_set.
    - by apply elem_of_dom. }
  exists σ1. eexists. split; [exact Hrun|].
  rewrite FieldFuncs_app, Hrun. simpl.
  rewrite FieldFuncs_cons, (FieldFunc_Panicked _ _ _ _ Hreg). simpl.
  split; [reflexivity|]. simpl. split; [done|]. split; [done|].
  assert (∀ n, field {| obj := obj σ1;
                        mem := <[fresh (dom (mem σ1)) :=
                                   built (reg_fn r) (reg_options r)]> (mem σ1) |} n
               = field σ1 n) as Hsame by (intros n; by apply field_alloc).
  split; [|exact Hsame].
  intros r' Hr'. rewrite Hsame.
  destruct (Hcells r' Hr') as (p & Hp & _ & Hd). unfold field. by rewrite Hp.
Qed.

(** ** The order of registrations *)

Lemma FieldFunc_frame name f options σ :
  Name (obj (outcome_state (FieldFunc name f options σ))) = Name (obj σ) ∧
  Description (obj (outcome_state (FieldFunc name f options σ))) = Description (obj σ) ∧
  Type_ (obj (outcome_state (FieldFunc name f options σ))) = Type_ (obj σ) ∧
  PaginatedFields (obj (outcome_state (FieldFunc name f options σ)))
    = PaginatedFields (obj σ) ∧
  key (obj (outcome_state (FieldFunc name f options σ))) = key (obj σ).
Proof. unfold FieldFunc. by destruct (_ !! name). Qed.

Lemma FieldFuncs_frame rs :
  ∀ σ, Name (obj (outcome_state (FieldFuncs rs σ))) = Name (obj σ) ∧
       Description (obj (outcome_state (FieldFuncs rs σ))) = Description (obj σ) ∧
       Type_ (obj (outcome_state (FieldFuncs rs σ))) = Type_ (obj σ) ∧
       PaginatedFields (obj (outcome_state (FieldFuncs rs σ)))
         = PaginatedFields (obj σ) ∧
       key (obj (outcome_state (FieldFuncs rs σ))) = key (obj σ).
Proof.
  induction rs as [|r rs IH]; intros σ; [done|].
  rewrite FieldFuncs_cons.
  pose proof (FieldFunc_frame (reg_name r) (reg_fn r) (reg_options r) σ) as Hstep.
  destruct (FieldFunc _ _ _ σ) as [τ|msg τ]; simpl in *; [|done].
  destruct (IH τ) as (-> & -> & -> & -> & ->). done.
Qed.

(** What is registered after calls with distinct, unregistered names: the
    descriptor built by the call for each of its names, and what was there
    before for every other name. *)
Lemma FieldFuncs_registered rs σ :
  wf σ →
  NoDup (reg_name <$> rs) →
  (∀ n, n ∈ reg_name <$> rs → registry (obj σ) !! n = None) →
  ∃ σ', FieldFuncs rs σ = Returned σ' ∧
        (∀ r, r ∈ rs →
           registered σ' !! reg_name r = Some (Some (built (reg_fn r) (reg_options r)))) ∧
        (∀ n, n ∉ reg_name <$> rs → registered σ' !! n = registered σ !! n) ∧
        (rs ≠ [] → is_Some (Methods_ (obj σ'))).
Proof.
  intros Hwf Hnd Hfree.
  destruct (FieldFuncs_spec rs σ Hwf Hnd Hfree)
    as (σ' & Hrun & _ & Hsub & Hmem & Hdom & _ & Hcells & _).
  exists σ'. split; [exact Hrun|]. repeat split.
  - intros r Hr. destruct (Hcells r Hr) as (p & Hp & _ & Hd).
    unfold registered. by rewrite lookup_fmap, Hp; simpl; rewrite Hd.
  - intros n Hn. unfold registered. rewrite !lookup_fmap.
    destruct (registry (obj σ) !! n) as [p|] eqn:Hp.
    + rewrite (lookup_weaken _ _ _ _ Hp Hsub). simpl. f_equal.
      destruct (Hwf n p Hp) as [d Hd]. rewrite Hd.
      by apply (lookup_weaken _ _ _ _ Hd Hmem).
    + assert (registry (obj σ') !! n = None) as ->; [|done].
      apply not_elem_of_dom. rewrite Hdom. intros [Hin|Hin]%elem_of_union.
      * by apply not_elem_of_dom in Hp.
      * by apply elem_of_list_to_set in Hin.
  - intros Hne. destruct rs as [|r rs]; [done|].
    destruct (Hcells r) as (p & Hp & _); [apply elem_of_cons; by left|].
    unfold registry in Hp. destruct (Methods_ (obj σ')); [by eauto|].
    by rewrite lookup_empty in Hp.
Qed.

(** X4: the order of [FieldFunc] calls does not matter.  Two orderings of
    the same calls, with distinct unregistered names, both return, and the
    final states agree on every field of the object and on the registered
    names and descriptors (the cells may sit at different addresses). *)
Theorem FieldFuncs_order_irrelevant rs rs' σ :
  wf σ →
  NoDup (reg_name <$> rs) →
  (∀ n, n ∈ reg_name <$> rs → registry (obj σ) !! n = None) →
  rs ≡ₚ rs' →
  ∃ σa σb, FieldFuncs rs σ = Returned σa ∧
           FieldFuncs rs' σ = Returned σb ∧
           same_state σa σb ∧
           ∀ n, field σa n = field σb n.
Proof.
  intros Hwf Hnd Hfree Hperm.
  assert (reg_name <$> rs ≡ₚ reg_name <$> rs') as Hnames by (by apply fmap_Permutation).
  destruct (FieldFuncs_registered rs σ Hwf Hnd Hfree) as (σa & Hruna & Hina & Houta & Hsa).
  destruct (FieldFuncs_registered rs' σ Hwf) as (σb & Hrunb & Hinb & Houtb & Hsb).
  { by rewrite <- Hnames. }
  { intros n Hn. apply Hfree. by rewrite Hnames. }
  assert (registered σa = registered σb) as Hreg.
  { apply map_eq. intros n.
    destruct (decide (n ∈ reg_name <$> rs)) as [Hn|Hn].
    - apply list_elem_of_fmap in Hn as (r & -> & Hr).
      rewrite Hina by done. rewrite Hinb; [done|]. by rewrite <- Hperm.
    - rewrite Houta by done. rewrite Houtb; [done|]. by rewrite <- Hnames. }
  exists σa, σb. split; [exact Hruna|]. split; [exact Hrunb|]. split.
  - pose proof (FieldFuncs_frame rs σ) as Hfa. rewrite Hruna in Hfa.
    pose proof (FieldFuncs_frame rs' σ) as Hfb. rewrite Hrunb in Hfb.
    simpl in Hfa, Hfb.
    destruct Hfa as (Ha1 & Ha2 & Ha3 & Ha4 & Ha5).
    destruct Hfb as (Hb1 & Hb2 & Hb3 & Hb4 & Hb5).
    unfold same_state. rewrite Ha1, Ha2, Ha3, Ha4, Ha5, Hb1, Hb2, Hb3, Hb4, Hb5.
    repeat split.
    destruct rs as [|r0 rs0].
    + apply Permutation_nil_l in Hperm as <-.
      unfold FieldFuncs in Hruna, Hrunb; simpl in *. congruence.
    + destruct Hsa as [ma Hma]; [done|].
      destruct Hsb as [mb Hmb].
      { intros ->. by apply Permutation_nil_r in Hperm. }
      unfold registered, registry in Hreg. unfold descriptors.
      rewrite Hma, Hmb in *. simpl. by rewrite Hreg.
  - intros n. assert (registered σa !! n = registered σb !! n) as Hn by (by rewrite Hreg).
    unfold registered in Hn. rewrite !lookup_fmap in Hn. unfold field.
    destruct (registry (obj σa) !! n), (registry (obj σb) !! n); simpl in *; congruence.
Qed.

(** ** Key and FieldFunc *)

(** X5: [Key] and a [FieldFunc] call under an unregistered name can be made
    in either order, with the same final state.  Under a registered name
    both orders panic, and only the [Key] call made before the panic has
    taken effect. *)
Theorem Key_FieldFunc_commute k name f options σ :
  (registry (obj σ) !! name = None →
     bind (Key k σ) (FieldFunc name f options)
       = bind (FieldFunc name f options σ) (Key k)) ∧
  (is_Some (registry (obj σ) !! name) →
     key (obj (outcome_state (bind (Key k σ) (FieldFunc name f options)))) = k ∧
     key (obj (outcome_state (bind (FieldFunc name f options σ) (Key k))))
       = key (obj σ)).
Proof.
  split.
  - intros Hn. simpl. rewrite !FieldFunc_Returned by done. done.
  - intros Hdup. simpl. rewrite !FieldFunc_Panicked by done. done.
Qed.

Lemma last_key_cons k c cs :
  last_key k (c :: cs)
    = last_key (match c with CallKey f => f | _ => k end) cs.
Proof. done. Qed.

(** X6: after a sequence of calls that returns, the key field is the
    argument of the last [Key] call, wherever the [FieldFunc] calls stand,
    and the earlier key when the sequence has no [Key] call. *)
Theorem run_key_is_last_Key cs :
  ∀ σ σ', run cs σ = Returned σ' →
          key (obj σ') = last_key (key (obj σ)) cs.
Proof.
  induction cs as [|c cs IH]; intros σ σ'.
  - simpl. by intros [= <-].
  - rewrite last_key_cons. simpl.
    destruct c as [name f options|f|p]; simpl.
    + pose proof (FieldFunc_frame name f options σ) as (_ & _ & _ & _ & Hk).
      destruct (FieldFunc name f options σ) as [τ|msg τ]; simpl in *; [|done].
      intros Hrun. rewrite <- Hk. by apply IH.
    + intros Hrun. by rewrite (IH _ _ Hrun).
    + intros Hrun. by rewrite (IH _ _ Hrun).
Qed.

(** ** NonNullable more than once *)

Lemma apply_options_NonNullable k d :
  apply_options (replicate (S k) NonNullable) d = NonNullable d.
Proof.
  revert d. induction k as [|k IH]; intros d; [done|].
  change (apply_options (replicate (S (S k)) NonNullable) d)
    with (apply_options (replicate (S k) NonNullable) (NonNullable d)).
  by rewrite IH.
Qed.

(** X8: passing [NonNullable] several times to [FieldFunc] is the same as
    passing it once, and the registered descriptor then carries the function
    that was passed, with the flag set. *)
Theorem FieldFunc_NonNullable_repeated name f k σ :
  FieldFunc name f (replicate (S k) NonNullable) σ
    = FieldFunc name f [NonNullable] σ ∧
  (registry (obj σ) !! name = None →
     field (outcome_state (FieldFunc name f (replicate (S k) NonNullable) σ)) name
       = Some {| MarkedNonNullable := true; Fn := f |}).
Proof.
  assert (built f (replicate (S k) NonNullable)
          = {| MarkedNonNullable := true; Fn := f |}) as Hb
    by (unfold built; by rewrite apply_options_NonNullable).
  split.
  - unfold FieldFunc. rewrite !foldl_call_option.
    by rewrite apply_options_NonNullable.
  - intros Hn. rewrite FieldFunc_Returned by done. cbn [outcome_state].
    by rewrite field_FieldFunc_new, Hb.
Qed.

(** ** Where registered descriptors come from *)

Lemma run_registered_origin cs :
  ∀ σ, wf σ →
    ∀ n, is_Some (registry (obj (outcome_state (run cs σ))) !! n) →
      (is_Some (registry (obj σ) !! n) ∧
       field (outcome_state (run cs σ)) n = field σ n) ∨
      (∃ f options, CallFieldFunc n f options ∈ cs ∧
         field (outcome_state (run cs σ)) n = Some (built f options)).
Proof.
  induction cs as [|c cs IH]; intros σ Hwf n; simpl; [by left|].
  pose proof (exec_wf c σ Hwf) as Hwf1.
  destruct c as [name f options|f|p]; simpl in *.
  - destruct (registry (obj σ) !! name) as [q|] eqn:Hq.
    + rewrite FieldFunc_Panicked by eauto. simpl. intros Hn. left.
      split; [done|]. by apply field_alloc.
    + rewrite FieldFunc_Returned in * by done. simpl in *.
      set (σ1 := {| obj := _; mem := _ |}) in *. intros Hn.
      destruct (IH σ1 Hwf1 n Hn) as [[Hreg Hf]|(f' & o' & Hin & Hf)].
      * destruct (decide (n = name)) as [->|Hne].
        -- right. exists f, options. split; [apply elem_of_cons; by left|].
           rewrite Hf. apply field_FieldFunc_new.
        -- left. rewrite Hf. unfold σ1 in Hreg; simpl in Hreg.
           rewrite registry_set_Methods, lookup_insert_ne in Hreg by done.
           split; [done|]. by apply field_FieldFunc_other.
      * right. exists f', o'. split; [apply elem_of_cons; by right|done].
  - intros Hn. destruct (IH _ Hwf1 n Hn) as [[Hreg Hf]|(f' & o' & Hin & Hf)].
    + left. by split.
    + right. exists f', o'. split; [apply elem_of_cons; by right|done].
  - intros Hn. destruct (IH _ Hwf1 n Hn) as [[Hreg Hf]|(f' & o' & Hin & Hf)].
    + left. by split.
    + right. exists f', o'. split; [apply elem_of_cons; by right|done].
Qed.

(** X9: on an object that starts empty, whatever calls are made and however
    they end, every name in the registry has a descriptor behind it (never a
    nil pointer), and that descriptor is the one built by a [FieldFunc] call
    of the sequence under that name, from its function and its options. *)
Theorem registered_fields_come_from_calls t cs n :
  is_Some (registry (obj (outcome_state (run cs (new_Object t)))) !! n) →
  ∃ f options, CallFieldFunc n f options ∈ cs ∧
    field (outcome_state (run cs (new_Object t))) n = Some (built f options).
Proof.
  intros Hn.
  destruct (run_registered_origin cs (new_Object t) (wf_new_Object t) n Hn)
    as [[Hreg _]|Hcall]; [|done].
  unfold new_Object, registry in Hreg; simpl in Hreg.
  rewrite lookup_empty in Hreg. by destruct Hreg.
Qed.

End schemabuilder.

(** * The theorems at the example of the specification

    Field functions and type handles are named by strings here. *)

Open Scope string_scope.

Lemma wf_scenario_state : wf (scenario_state "User" "f1" "f2").
Proof. apply run_wf, wf_new_Object. Qed.

Lemma FieldFuncs_distinct_names_witness :
  wf (new_Object "User") ∧
  NoDup (reg_name <$> [Build_registration "fullName" "f1" [];
                       Build_registration "age" "f2" [NonNullable]]) ∧
  (∀ n, n ∈ reg_name <$> [Build_registration "fullName" "f1" [];
                          Build_registration "age" "f2" [NonNullable]] →
        registry (obj (new_Object "User")) !! n = None) ∧
  ∃ σ', FieldFuncs [Build_registration "fullName" "f1" [];
                    Build_registration "age" "f2" [NonNullable]] (new_Object "User")
          = Returned σ' ∧
        dom (registry (obj σ')) = {["fullName"; "age"]} ∧
        field σ' "fullName" = Some {| MarkedNonNullable := false; Fn := "f1" |} ∧
        field σ' "age" = Some {| MarkedNonNullable := true; Fn := "f2" |}.
Proof.
  assert (NoDup (reg_name <$> [Build_registration "fullName" "f1" [];
                               Build_registration "age" "f2" [NonNullable]])) as Hnd
    by (refine (bool_decide_unpack _ _); vm_compute; exact I).
  split; [apply wf_new_Object|]. split; [exact Hnd|].
  split; [intros n _; apply lookup_empty|].
  destruct (FieldFuncs_distinct_names
              [Build_registration "fullName" "f1" [];
               Build_registration "age" "f2" [NonNullable]]
              (new_Object "User") (wf_new_Object _) Hnd)
    as (σ' & Hrun & _ & Hdom & _ & Hfield & _).
  { intros n _. apply lookup_empty. }
  exists σ'. split; [exact Hrun|]. split.
  - destruct (Hdom eq_refl) as [-> _]. simpl. by rewrite (right_id_L ∅ (∪)).
  - split; [apply (Hfield (Build_registration "fullName" "f1" []))
           |apply (Hfield (Build_registration "age" "f2" [NonNullable]))];
      repeat constructor.
Defined.

Lemma FieldFunc_duplicate_panics_witness :
  wf (scenario_state "User" "f1" "f2") ∧
  is_Some (registry (obj (scenario_state "User" "f1" "f2")) !! "age") ∧
  ∃ σ', FieldFunc "age" "f3" [] (scenario_state "User" "f1" "f2")
          = Panicked "duplicate method" σ' ∧
        obj σ' = obj (scenario_state "User" "f1" "f2") ∧
        field σ' "age" = Some {| MarkedNonNullable := true; Fn := "f2" |} ∧
        field σ' "fullName" = Some {| MarkedNonNullable := false; Fn := "f1" |}.
Proof.
  assert (is_Some (registry (obj (scenario_state "User" "f1" "f2")) !! "age")) as Hdup
    by (eexists; vm_compute; reflexivity).
  split; [exact wf_scenario_state|]. split; [exact Hdup|].
  destruct (FieldFunc_duplicate_panics "age" "f3" [] _ wf_scenario_state Hdup)
    as (σ' & Hrun & _ & Hobj & _ & Hfield & _).
  exists σ'. split; [exact Hrun|]. split; [exact Hobj|].
  rewrite !Hfield. split; vm_compute; reflexivity.
Defined.

Lemma NonNullable_marks_its_field_only_witness :
  wf (scenario_state "User" "f1" "f2") ∧
  registry (obj (scenario_state "User" "f1" "f2")) !! "email" = None ∧
  (∃ σ' d, FieldFunc "email" "f3" [NonNullable] (scenario_state "User" "f1" "f2")
             = Returned σ' ∧
           field σ' "email" = Some d ∧ MarkedNonNullable d = true) ∧
  (∃ σ' d, FieldFunc "email" "f3" [] (scenario_state "User" "f1" "f2")
             = Returned σ' ∧
           field σ' "email" = Some d ∧ MarkedNonNullable d = false) ∧
  (∃ σ', FieldFunc "email" "f3" [NonNullable] (scenario_state "User" "f1" "f2")
           = Returned σ' ∧
         field σ' "fullName" = Some {| MarkedNonNullable := false; Fn := "f1" |}).
Proof.
  assert (registry (obj (scenario_state "User" "f1" "f2")) !! "email" = None) as Hfree
    by (vm_compute; reflexivity).
  split; [exact wf_scenario_state|]. split; [exact Hfree|].
  destruct (NonNullable_marks_its_field_only "email" "f3" _ wf_scenario_state Hfree)
    as (Hwith & Hwithout & Hothers).
  split; [exact (Hwith [] [] (Forall_nil_2 _))|].
  split; [exact (Hwithout [] (Forall_nil_2 _))|].
  destruct (Hothers [NonNullable]) as (σ' & Hrun & Hsib).
  exists σ'. split; [exact Hrun|].
  rewrite Hsib by done. vm_compute; reflexivity.
Defined.

Lemma Key_last_write_wins_witness :
  registry (obj (new_Object "User")) !! "fullName" = None ∧
  ∃ σ', Key "fullName" (new_Object "User") = Returned σ' ∧
        key (obj σ') = "fullName".
Proof.
  assert (registry (obj (new_Object "User")) !! "fullName" = None) as Hfree
    by apply lookup_empty.
  split; [exact Hfree|].
  destruct (@Key_last_write_wins string) as (_ & _ & _ & Hunchecked).
  exact (Hunchecked (new_Object "User") "fullName" Hfree).
Defined.

Lemma FieldFunc_options_in_order_witness :
  registry (obj (new_Object "User")) !! "age" = None ∧
  ∃ σ' m d,
    FieldFunc "age" "f2"
      [NonNullable; λ d, {| MarkedNonNullable := false; Fn := Fn d |}]
      (new_Object "User") = Returned σ' ∧
    registry (obj σ') !! "age" = Some m ∧
    mem σ' !! m = Some d ∧
    MarkedNonNullable d = false.
Proof.
  assert (registry (obj (new_Object "User")) !! "age" = None) as Hfree
    by apply lookup_empty.
  split; [exact Hfree|].
  destruct (FieldFunc_options_in_order "age" "f2"
              [NonNullable; λ d, {| MarkedNonNullable := false; Fn := Fn d |}]
              (new_Object "User") Hfree)
    as (σ' & m & Hrun & Hreg & _ & _ & Hcell & _ & Hlast).
  exists σ', m. eexists. split; [exact Hrun|]. split; [exact Hreg|]. split; [exact Hcell|].
  apply (Hlast bool MarkedNonNullable false [NonNullable]
           (λ d, {| MarkedNonNullable := false; Fn := Fn d |}) [] _ eq_refl);
    [by intros d|apply Forall_nil_2|exact Hcell].
Defined.

Lemma PaginatedField_appends_witness :
  PaginatedFields (obj (new_Object "User")) = [] ∧
  ∃ σ', bind (PaginatedField {| pgName := "items"; pgFn := "g1" |} (new_Object "User"))
             (PaginatedField {| pgName := "items"; pgFn := "g2" |}) = Returned σ' ∧
        PaginatedFields (obj σ') =
          [{| pgName := "items"; pgFn := "g1" |}; {| pgName := "items"; pgFn := "g2" |}].
Proof.
  split; [reflexivity|].
  destruct (PaginatedField_appends (new_Object "User")
              {| pgName := "items"; pgFn := "g1" |} {| pgName := "items"; pgFn := "g2" |})
    as (σ' & Hrun & _ & Hempty & _).
  exists σ'. split; [exact Hrun|exact (Hempty eq_refl)].
Defined.

Lemma FieldFunc_initialises_registry_witness :
  Methods_ (obj (new_Object "User")) = None ∧
  ∃ σ' m, FieldFunc "fullName" "f1" [] (new_Object "User") = Returned σ' ∧
          Methods_ (obj σ') = Some {["fullName" := m]} ∧
          field σ' "fullName" = Some {| MarkedNonNullable := false; Fn := "f1" |}.
Proof.
  split; [reflexivity|].
  destruct (FieldFunc_initialises_registry "fullName" "f1" [] (new_Object "User") eq_refl)
    as (σ' & m & Hrun & Hreg & _ & Hfield).
  exists σ', m. split; [exact Hrun|]. split; [exact Hreg|exact Hfield].
Defined.

Lemma registration_deterministic_witness :
  wf (scenario_state "User" "f1" "f2") ∧
  wf {| obj := {| Name := EmptyString; Description := EmptyString; Type_ := "User";
                  Methods_ := Some {["fullName" := 5%positive; "age" := 9%positive]};
                  PaginatedFields := []; key := "fullName" |};
        mem := {[5%positive := {| MarkedNonNullable := false; Fn := "f1" |};
                 9%positive := {| MarkedNonNullable := true; Fn := "f2" |}]} |} ∧
  same_state (scenario_state "User" "f1" "f2")
    {| obj := {| Name := EmptyString; Description := EmptyString; Type_ := "User";
                 Methods_ := Some {["fullName" := 5%positive; "age" := 9%positive]};
                 PaginatedFields := []; key := "fullName" |};
       mem := {[5%positive := {| MarkedNonNullable := false; Fn := "f1" |};
                9%positive := {| MarkedNonNullable := true; Fn := "f2" |}]} |} ∧
  same_outcome
    (run [CallFieldFunc "email" "f3" [NonNullable];
          CallPaginatedField {| pgName := "items"; pgFn := "g1" |};
          CallKey "email"; CallFieldFunc "age" "f4" []]
       (scenario_state "User" "f1" "f2"))
    (run [CallFieldFunc "email" "f3" [NonNullable];
          CallPaginatedField {| pgName := "items"; pgFn := "g1" |};
          CallKey "email"; CallFieldFunc "age" "f4" []]
       {| obj := {| Name := EmptyString; Description := EmptyString; Type_ := "User";
                    Methods_ := Some {["fullName" := 5%positive; "age" := 9%positive]};
                    PaginatedFields := []; key := "fullName" |};
          mem := {[5%positive := {| MarkedNonNullable := false; Fn := "f1" |};
                   9%positive := {| MarkedNonNullable := true; Fn := "f2" |}]} |}).
Proof.
  set (σ2 := {| obj := {| Name := EmptyString; Description := EmptyString; Type_ := "User";
                  Methods_ := Some {["fullName" := 5%positive; "age" := 9%positive]};
                  PaginatedFields := []; key := "fullName" |};
        mem := {[5%positive := {| MarkedNonNullable := false; Fn := "f1" |};
                 9%positive := {| MarkedNonNullable := true; Fn := "f2" |}]} |}).
  assert (wf σ2) as Hwf2
    by (unfold wf; refine (bool_decide_unpack _ _); vm_compute; exact I).
  assert (same_state (scenario_state "User" "f1" "f2") σ2) as Hsame
    by (repeat split; vm_compute; reflexivity).
  split; [exact wf_scenario_state|]. split; [exact Hwf2|]. split; [exact Hsame|].
  destruct (@registration_deterministic string) as (Hdet & _).
  exact (Hdet _ _ _ wf_scenario_state Hwf2 Hsame).
Defined.

Lemma registration_frame_witness :
  FieldFunc "fullName" "f1" [NonNullable] (new_Object "User")
    = Returned (outcome_state (FieldFunc "fullName" "f1" [NonNullable] (new_Object "User"))) ∧
  key (obj (outcome_state (FieldFunc "fullName" "f1" [NonNullable] (new_Object "User"))))
    = key (obj (new_Object "User")) ∧
  Key "fullName" (new_Object "User")
    = Returned (outcome_state (Key "fullName" (new_Object "User"))) ∧
  Methods_ (obj (outcome_state (Key "fullName" (new_Object "User"))))
    = Methods_ (obj (new_Object "User")).
Proof.
  destruct (@registration_frame string) as (HFieldFunc & HKey).
  assert (FieldFunc "fullName" "f1" [NonNullable] (new_Object "User")
          = Returned (outcome_state
                        (FieldFunc "fullName" "f1" [NonNullable] (new_Object "User"))))
    as Hrun by reflexivity.
  assert (Key "fullName" (new_Object "User")
          = Returned (outcome_state (Key "fullName" (new_Object "User"))))
    as Hkey by reflexivity.
  split; [exact Hrun|]. split; [exact (proj1 (proj2 (proj2 (proj2 (HFieldFunc _ _ _ _ _ Hrun)))))|].
  split; [exact Hkey|]. exact (proj1 (proj2 (proj2 (proj2 (HKey _ _ _ Hkey))))).
Defined.

Lemma FieldFunc_empty_name_witness :
  registry (obj (scenario_state "User" "f1" "f2")) !! EmptyString = None ∧
  ∃ σ' m, FieldFunc EmptyString "f3" [] (scenario_state "User" "f1" "f2") = Returned σ' ∧
          registry (obj σ') !! EmptyString = Some m ∧
          field σ' EmptyString = Some {| MarkedNonNullable := false; Fn := "f3" |}.
Proof.
  assert (registry (obj (scenario_state "User" "f1" "f2")) !! EmptyString = None) as Hfree
    by (vm_compute; reflexivity).
  split; [exact Hfree|].
  destruct (FieldFunc_empty_name "f3" [] _ Hfree) as (σ' & m & Hrun & Hreg & _ & Hfield).
  exists σ', m. split; [exact Hrun|]. split; [exact Hreg|exact Hfield].
Defined.

(** The expected state of the specification's first example. *)
Example scenario_result :
  field (scenario_state "User" "f1" "f2") "fullName"
    = Some {| MarkedNonNullable := false; Fn := "f1" |} ∧
  field (scenario_state "User" "f1" "f2") "age"
    = Some {| MarkedNonNullable := true; Fn := "f2" |} ∧
  field (scenario_state "User" "f1" "f2") "email" = None ∧
  key (obj (scenario_state "User" "f1" "f2")) = "fullName" ∧
  PaginatedFields (obj (scenario_state "User" "f1" "f2")) = [].
Proof. repeat split; vm_compute; reflexivity. Qed.

(** Its second example: a further call under ["age"] panics. *)
Example scenario_duplicate :
  run (app (scenario "f1" "f2") [CallFieldFunc "age" "f3" []]) (new_Object "User")
    = Panicked "duplicate method"
        {| obj := obj (scenario_state "User" "f1" "f2");
           mem := <[3%positive := {| MarkedNonNullable := false; Fn := "f3" |}]>
                    (mem (scenario_state "User" "f1" "f2")) |}.
Proof. vm_compute. reflexivity. Qed.

(** * The further properties at the example *)



Lemma FieldFuncs_stop_at_duplicate_witness :
  wf (new_Object "User") ∧
  NoDup (reg_name <$> [Build_registration "fullName" "f1" [];
                       Build_registration "age" "f2" [NonNullable]]) ∧
  "age" ∈ reg_name <$> [Build_registration "fullName" "f1" [];
                        Build_registration "age" "f2" [NonNullable]] ∧
  ∃ σ', FieldFuncs [Build_registration "fullName" "f1" [];
                    Build_registration "age" "f2" [NonNullable];
                    Build_registration "age" "f3" [];
                    Build_registration "email" "f4" []] (new_Object "User")
          = Panicked "duplicate method" σ' ∧
        field σ' "fullName" = Some {| MarkedNonNullable := false; Fn := "f1" |} ∧
        field σ' "age" = Some {| MarkedNonNullable := true; Fn := "f2" |} ∧
        dom (registry (obj σ')) = {["fullName"; "age"]}.
Proof.
  assert (NoDup (reg_name <$> [Build_registration "fullName" "f1" [];
                               Build_registration "age" "f2" [NonNullable]])) as Hnd
    by (refine (bool_decide_unpack _ _); vm_compute; exact I).
  assert ("age" ∈ reg_name <$> [Build_registration "fullName" "f1" [];
                                Build_registration "age" "f2" [NonNullable]]) as Hin
    by (refine (bool_decide_unpack _ _); vm_compute; exact I).
  split; [apply wf_new_Object|]. split; [exact Hnd|]. split; [exact Hin|].
  destruct (FieldFuncs_stop_at_duplicate
              [Build_registration "fullName" "f1" [];
               Build_registration "age" "f2" [NonNullable]]
              (Build_registration "age" "f3" [])
              [Build_registration "email" "f4" []]
              (new_Object "User") (wf_new_Object _) Hnd)
    as (σ1 & σ' & _ & Hrun & _ & Hdom & Hfield & _).
  { intros n _. apply lookup_empty. }
  { left. exact Hin. }
  exists σ'. split; [exact Hrun|].
  split; [apply (Hfield (Build_registration "fullName" "f1" [])); repeat constructor|].
  split; [apply (Hfield (Build_registration "age" "f2" [NonNullable])); repeat constructor|].
  rewrite Hdom. vm_compute. reflexivity.
Defined.

Lemma run_keeps_registered_witness :
  field (scenario_state "User" "f1" "f2") "age"
    = Some {| MarkedNonNullable := true; Fn := "f2" |} ∧
  field (outcome_state
           (run [CallFieldFunc "email" "f3" []; CallFieldFunc "age" "f4" [];
                 CallKey "email"]
                (scenario_state "User" "f1" "f2"))) "age"
    = Some {| MarkedNonNullable := true; Fn := "f2" |}.
Proof.
  assert (field (scenario_state "User" "f1" "f2") "age"
          = Some {| MarkedNonNullable := true; Fn := "f2" |}) as Hage
    by (vm_compute; reflexivity).
  split; [exact Hage|].
  exact (proj2 (proj2 (run_keeps_registered
                         [CallFieldFunc "email" "f3" []; CallFieldFunc "age" "f4" [];
                          CallKey "email"]
                         (scenario_state "User" "f1" "f2"))) _ _ Hage).
Defined.

Lemma FieldFuncs_order_irrelevant_witness :
  wf (new_Object "User") ∧
  NoDup (reg_name <$> [Build_registration "fullName" "f1" [];
                       Build_registration "age" "f2" [NonNullable]]) ∧
  [Build_registration "fullName" "f1" []; Build_registration "age" "f2" [NonNullable]]
    ≡ₚ [Build_registration "age" "f2" [NonNullable]; Build_registration "fullName" "f1" []] ∧
  ∃ σa σb,
    FieldFuncs [Build_registration "fullName" "f1" [];
                Build_registration "age" "f2" [NonNullable]] (new_Object "User")
      = Returned σa ∧
    FieldFuncs [Build_registration "age" "f2" [NonNullable];
                Build_registration "fullName" "f1" []] (new_Object "User")
      = Returned σb ∧
    same_state σa σb.
Proof.
  assert (NoDup (reg_name <$> [Build_registration "fullName" "f1" [];
                               Build_registration "age" "f2" [NonNullable]])) as Hnd
    by (refine (bool_decide_unpack _ _); vm_compute; exact I).
  split; [apply wf_new_Object|]. split; [exact Hnd|].
  split; [apply perm_swap|].
  destruct (FieldFuncs_order_irrelevant
              [Build_registration "fullName" "f1" [];
               Build_registration "age" "f2" [NonNullable]]
              [Build_registration "age" "f2" [NonNullable];
               Build_registration "fullName" "f1" []]
              (new_Object "User") (wf_new_Object _) Hnd)
    as (σa & σb & Ha & Hb & Hsame & _).
  { intros n _. apply lookup_empty. }
  { apply perm_swap. }
  exists σa, σb. split; [exact Ha|]. split; [exact Hb|exact Hsame].
Defined.

Lemma Key_FieldFunc_commute_witness :
  registry (obj (new_Object "User")) !! "fullName" = None ∧
  bind (Key "fullName" (new_Object "User")) (FieldFunc "fullName" "f1" [])
    = bind (FieldFunc "fullName" "f1" [] (new_Object "User")) (Key "fullName") ∧
  is_Some (registry (obj (scenario_state "User" "f1" "f2")) !! "age") ∧
  key (obj (outcome_state
              (bind (FieldFunc "age" "f3" [] (scenario_state "User" "f1" "f2"))
                    (Key "age"))))
    = key (obj (scenario_state "User" "f1" "f2")).
Proof.
  assert (registry (obj (new_Object "User")) !! "fullName" = None) as Hfree
    by apply lookup_empty.
  assert (is_Some (registry (obj (scenario_state "User" "f1" "f2")) !! "age")) as Hdup
    by (eexists; vm_compute; reflexivity).
  split; [exact Hfree|].
  split; [exact (proj1 (Key_FieldFunc_commute "fullName" "fullName" "f1" []
                          (new_Object "User")) Hfree)|].
  split; [exact Hdup|].
  exact (proj2 (proj2 (Key_FieldFunc_commute "age" "age" "f3" []
                         (scenario_state "User" "f1" "f2")) Hdup)).
Defined.

Lemma run_key_is_last_Key_witness :
  run [CallKey "id"; CallFieldFunc "id" "f1" []; CallKey "uuid";
       CallFieldFunc "uuid" "f2" [NonNullable]] (new_Object "User")
    = Returned (outcome_state
                  (run [CallKey "id"; CallFieldFunc "id" "f1" []; CallKey "uuid";
                        CallFieldFunc "uuid" "f2" [NonNullable]] (new_Object "User"))) ∧
  key (obj (outcome_state
              (run [CallKey "id"; CallFieldFunc "id" "f1" []; CallKey "uuid";
                    CallFieldFunc "uuid" "f2" [NonNullable]] (new_Object "User"))))
    = "uuid".
Proof.
  assert (run [CallKey "id"; CallFieldFunc "id" "f1" []; CallKey "uuid";
               CallFieldFunc "uuid" "f2" [NonNullable]] (new_Object "User")
          = Returned (outcome_state
                        (run [CallKey "id"; CallFieldFunc "id" "f1" []; CallKey "uuid";
                              CallFieldFunc "uuid" "f2" [NonNullable]]
                             (new_Object "User")))) as Hrun
    by (vm_compute; reflexivity).
  split; [exact Hrun|].
  exact (run_key_is_last_Key _ _ _ Hrun).
Defined.

Lemma FieldFunc_NonNullable_repeated_witness :
  registry (obj (new_Object "User")) !! "age" = None ∧
  field (outcome_state
           (FieldFunc "age" "f2" [NonNullable; NonNullable; NonNullable]
                      (new_Object "User"))) "age"
    = Some {| MarkedNonNullable := true; Fn := "f2" |}.
Proof.
  assert (registry (obj (new_Object "User")) !! "age" = None) as Hfree
    by apply lookup_empty.
  split; [exact Hfree|].
  exact (proj2 (FieldFunc_NonNullable_repeated "age" "f2" 2 (new_Object "User")) Hfree).
Defined.

Lemma registered_fields_come_from_calls_witness :
  is_Some (registry (obj (outcome_state (run (scenario "f1" "f2") (new_Object "User"))))
             !! "age") ∧
  ∃ f options,
    CallFieldFunc "age" f options ∈ scenario "f1" "f2" ∧
    field (outcome_state (run (scenario "f1" "f2") (new_Object "User"))) "age"
      = Some (built f options).
Proof.
  assert (is_Some (registry (obj (outcome_state
                                    (run (scenario "f1" "f2") (new_Object "User"))))
                     !! "age")) as Hreg
    by (eexists; vm_compute; reflexivity).
  split; [exact Hreg|].
  exact (registered_fields_come_from_calls "User" (scenario "f1" "f2") "age" Hreg).
Defined.
